(** * cl.py: flags, options and arguments of a script's command line

    A shallow embedding of the module [cl.py] and the properties of its
    two queries, [flag] and [option], and of its glob expansion.

    Command-line tokens are [string]s.  The two module-level lists,
    [arguments] (consumed by the queries) and [_original_arguments] (only
    searched), are the fields of a record that every query threads through;
    Python exceptions are a result constructor, and [try]/[except] is a
    combinator over the ordered list of its [except] clauses. *)

From Stdlib Require Import String Ascii ZArith List Sorted Lia.
From stdpp Require Import base list strings.

Open Scope string_scope.
Open Scope list_scope.

(** ** Python exceptions and results *)

(** The exception classes the module distinguishes.  An [except C] clause
    matches by [isinstance], so a subclass of [ValueError] (or of
    [IndexError]) is represented by that constructor; every other class is
    [OtherError], carrying its class name. *)
Inductive exn : Type :=
  | ValueError (msg : string)
  | IndexError (msg : string)
  | OtherError (cls msg : string).

Definition is_ValueError (e : exn) : bool :=
  match e with ValueError _ => true | _ => false end.

Definition is_IndexError (e : exn) : bool :=
  match e with IndexError _ => true | _ => false end.

Inductive result (A : Type) : Type :=
  | Return (a : A)
  | Raise (e : exn).

Arguments Return {A} a.
Arguments Raise {A} e.

(** ** Methods of Python lists of strings *)

(** [l.index(x)]: the position of the first element equal to [x]. *)
Fixpoint first_index (x : string) (l : list string) : option nat :=
  match l with
  | [] => None
  | y :: l' => if decide (y = x) then Some 0 else S <$> first_index x l'
  end.

Definition list_index (x : string) (l : list string) : result nat :=
  match first_index x l with
  | Some i => Return i
  | None => Raise (ValueError "x is not in list")
  end.

(** [l[i]] for a non-negative [i]. *)
Definition list_getitem (l : list string) (i : nat) : result string :=
  match l !! i with
  | Some v => Return v
  | None => Raise (IndexError "list index out of range")
  end.

(** [x in l]. *)
Definition list_contains (x : string) (l : list string) : bool :=
  bool_decide (x ∈ l).

(** [l.remove(x)]: the list without the first element equal to [x];
    [None] stands for the [ValueError] Python raises when there is none. *)
Fixpoint list_remove_first (x : string) (l : list string) : option (list string) :=
  match l with
  | [] => None
  | y :: l' => if decide (y = x) then Some l' else (y ::.) <$> list_remove_first x l'
  end.

(** [sub in s] on strings. *)
Fixpoint str_contains (sub s : string) : bool :=
  String.prefix sub s ||
  match s with
  | EmptyString => false
  | String _ s' => str_contains sub s'
  end.

(** ** A state and exception monad *)

Section Monad.

Context {S : Type}.

(** A computation reads and writes the module state and returns or raises;
    the state survives a raise. *)
Definition M (A : Type) : Type := S -> result A * S.

Definition ret {A} (a : A) : M A := fun s => (Return a, s).

Definition raise {A} (e : exn) : M A := fun s => (Raise e, s).

Definition bind {A B} (m : M A) (k : A -> M B) : M B :=
  fun s =>
    match m s with
    | (Return a, s') => k a s'
    | (Raise e, s') => (Raise e, s')
    end.

Definition lift {A} (r : result A) : M A := fun s => (r, s).

Definition gets {A} (f : S -> A) : M A := fun s => (Return (f s), s).

Definition modify (f : S -> S) : M unit := fun s => (Return tt, f s).

(** [try: body except C1: h1 except C2: h2 ...]: the first clause whose
    class matches the raised exception handles it; with none, it escapes. *)
Definition except_clause (A : Type) : Type := ((exn -> bool) * M A)%type.

Fixpoint dispatch {A} (e : exn) (clauses : list (except_clause A)) : M A :=
  match clauses with
  | [] => raise e
  | (matches, handler) :: clauses' =>
      if matches e then handler else dispatch e clauses'
  end.

Definition try_except {A} (body : M A) (clauses : list (except_clause A)) : M A :=
  fun s =>
    match body s with
    | (Return a, s') => (Return a, s')
    | (Raise e, s') => dispatch e clauses s'
    end.

End Monad.

Arguments M S A : clear implicits.

Notation "x <- m ;; k" := (bind m (fun x => k))
  (at level 100, m at next level, right associativity).
Notation "m ;;; k" := (bind m (fun _ => k))
  (at level 100, right associativity).

(** ** The module *)

Module cl.

Section GlobExpand.

(** [sys.platform], and [glob.glob] over the file system as it is while
    the module loads: the matches of a pattern, in traversal order. *)
Variable platform : string.
Variable glob : string -> list string.

(** The body of the [for arg in arguments] loop: one step on the
    accumulator [glob_expanded_arguments].  The source calls [glob] once
    for the test and once more for the matches it appends. *)
Definition glob_expand_step (glob_expanded_arguments : list string)
    (arg : string) : list string :=
  let globbed := glob arg in
  if bool_decide (globbed <> [])
  then glob_expanded_arguments ++ glob arg
  else glob_expanded_arguments ++ [arg].

Definition _glob_expand (arguments : list string) : list string :=
  if str_contains "win32" platform
  then fold_left glob_expand_step arguments []
  else arguments.

End GlobExpand.

(** The two module-level lists. *)
Record globals : Type := Globals {
  arguments : list string;            (* Will be modified! *)
  _original_arguments : list string   (* For searching, Read-only! *)
}.

(** The state once the module is loaded with the (expanded) arguments
    [raw]: [arguments] and its copy [_original_arguments]. *)
Definition start (raw : list string) : globals :=
  {| arguments := raw; _original_arguments := raw |}.

(** Module load: [arguments = _glob_expand(sys.argv[1:])] and
    [_original_arguments = arguments.copy()]. *)
Definition load (platform : string) (glob : string -> list string)
    (argv : list string) : globals :=
  start (_glob_expand platform glob (drop 1 argv)).

Definition set_arguments (l : list string) (s : globals) : globals :=
  {| arguments := l; _original_arguments := _original_arguments s |}.

(** [arguments.remove(x)], in place. *)
Definition arguments_remove (x : string) : M globals unit :=
  args <- gets arguments ;;
  match list_remove_first x args with
  | Some args' => modify (set_arguments args')
  | None => raise (ValueError "list.remove(x): x not in list")
  end.

(** [if x in arguments: arguments.remove(x)] *)
Definition remove_if_present (x : string) : M globals unit :=
  args <- gets arguments ;;
  if list_contains x args then arguments_remove x else ret tt.

(** [flag(name)] *)
Definition flag (name : string) : M globals bool :=
  try_except
    (orig <- gets _original_arguments ;;
     lift (list_index name orig) ;;;
     remove_if_present name ;;;
     ret true)
    [ (is_ValueError, ret false) ].

Section Option.

(** The type of the values [default], [missing] and the results of
    [convert].  [convert] returns or raises, and does not touch the
    module's lists. *)
Context {V : Type}.

(** [option(name, default, missing, convert)] *)
Definition option (name : string) (default missing : V)
    (convert : string -> result V) : M globals V :=
  try_except
    (orig <- gets _original_arguments ;;
     i <- lift (list_index name orig) ;;
     remove_if_present name ;;;
     value <- lift (list_getitem orig (i + 1)) ;;
     remove_if_present value ;;;
     lift (convert value))
    [ (is_ValueError, ret default);
      (is_IndexError, ret missing) ].

End Option.

End cl.

(** ** Sequences of queries *)

(** A call of [flag] or of [option] by the script. *)
Inductive query (V : Type) : Type :=
  | QFlag (name : string)
  | QOption (name : string) (default missing : V) (convert : string -> result V).

Arguments QFlag {V} name.
Arguments QOption {V} name default missing convert.

(** The state a call leaves behind, whether it returned or raised. *)
Definition run_query {V} (q : query V) (s : cl.globals) : cl.globals :=
  match q with
  | QFlag name => snd (cl.flag name s)
  | QOption name default missing convert =>
      snd (cl.option name default missing convert s)
  end.

Definition run_queries {V} (qs : list (query V)) (s : cl.globals) : cl.globals :=
  fold_left (fun s q => run_query q s) qs s.

(** ** Python values and the converters [str] and [int] *)

Inductive pyval : Type :=
  | PyNone
  | PyInt (z : Z)
  | PyStr (s : string).

(** [str] on a string is the identity. *)
Definition py_str (s : string) : result pyval := Return (PyStr s).

Definition is_space (c : ascii) : bool :=
  let n := nat_of_ascii c in
  ((9 <=? n)%nat && (n <=? 13)%nat) || ((28 <=? n)%nat && (n <=? 32)%nat).

Definition digit_value (c : ascii) : Datatypes.option Z :=
  let n := Z.of_nat (nat_of_ascii c) in
  if ((48 <=? n) && (n <=? 57))%Z then Some (n - 48)%Z else None.

Fixpoint lstrip (s : list ascii) : list ascii :=
  match s with
  | c :: s' => if is_space c then lstrip s' else s
  | [] => []
  end.

Definition strip (s : list ascii) : list ascii :=
  rev (lstrip (rev (lstrip s))).

(** Decimal digits, single underscores allowed between two digits. *)
Fixpoint digits_value (acc : Z) (after_digit : bool) (s : list ascii)
    : Datatypes.option Z :=
  match s with
  | [] => if after_digit then Some acc else None
  | c :: s' =>
      match digit_value c with
      | Some d => digits_value (10 * acc + d)%Z true s'
      | None =>
          if after_digit && bool_decide (c = "_"%char)
          then digits_value acc false s'
          else None
      end
  end.

(** [int] on ASCII text: surrounding white space, an optional sign, decimal
    digits; anything else is a [ValueError]. *)
Definition py_int (s : string) : result pyval :=
  let body := strip (list_ascii_of_string s) in
  let '(negative, ds) :=
    match body with
    | c :: r =>
        if bool_decide (c = "-"%char) then (true, r)
        else if bool_decide (c = "+"%char) then (false, r)
        else (false, body)
    | [] => (false, body)
    end in
  match digits_value 0 false ds with
  | Some z => Return (PyInt (if negative then - z else z)%Z)
  | None => Raise (ValueError "invalid literal for int() with base 10")
  end.

(** [option(name)] with the defaults of the signature:
    [default=None, missing='', convert=str]. *)
Definition option_defaults (name : string) : M cl.globals pyval :=
  cl.option name PyNone (PyStr "") py_str.

(** A file system for the examples: a directory that holds [a.csv] and
    [b.csv] and nothing else. *)
Definition two_csv_files (pattern : string) : list string :=
  if bool_decide (pattern = "*.csv") then ["a.csv"; "b.csv"]
  else if bool_decide (pattern = "a.csv") then ["a.csv"]
  else if bool_decide (pattern = "b.csv") then ["b.csv"]
  else [].

(** ** Vocabulary of the statements *)

(** What [if x in l: l.remove(x)] leaves of [l]. *)
Definition discard (x : string) (l : list string) : list string :=
  default l (list_remove_first x l).

(** What the expansion makes of one argument. *)
Definition expansion_of (glob : string -> list string) (arg : string)
    : list string :=
  match glob arg with
  | [] => [arg]
  | m :: ms => m :: ms
  end.

(** The specification's reading of two calls of [flag(name)] in a row on
    the module loaded with [raw]: both return [True] and the second
    removes nothing. *)
Definition flag_twice_removes_once (raw : list string) (name : string) : Prop :=
  let s1 := snd (cl.flag name (cl.start raw)) in
  let s2 := snd (cl.flag name s1) in
  fst (cl.flag name (cl.start raw)) = Return true /\
  fst (cl.flag name s1) = Return true /\
  cl.arguments s2 = cl.arguments s1.

(** The specification's reading of a failing conversion: whatever
    [convert] raises on the value of [name] reaches the caller of [option]
    as it was raised. *)
Definition conversion_failure_propagates {V} (raw : list string)
    (name : string) (default missing : V) (convert : string -> result V)
    : Prop :=
  forall i value e,
    first_index name raw = Some i ->
    raw !! (i + 1) = Some value ->
    convert value = Raise e ->
    fst (cl.option name default missing convert (cl.start raw)) = Raise e.

(** The tokens a query takes out of the working arguments, in the order
    it looks for them: the name when it is among the original arguments
    [raw], and for an option the token after the first name there. *)
Definition consumed {V} (raw : list string) (q : query V) : list string :=
  match q with
  | QFlag name => if bool_decide (name ∈ raw) then [name] else []
  | QOption name _ _ _ =>
      match first_index name raw with
      | None => []
      | Some i =>
          match raw !! (i + 1) with
          | None => [name]
          | Some value => [name; value]
          end
      end
  end.

(** [discard] for each token of [xs] in turn. *)
Definition discard_all (xs : list string) (l : list string) : list string :=
  fold_left (fun l x => discard x l) xs l.

(** The truth value Python gives [None], an integer and a string in a
    condition, as in [if option(...):]. *)
Definition py_truthy (v : pyval) : bool :=
  match v with
  | PyNone => false
  | PyInt z => negb (z =? 0)%Z
  | PyStr EmptyString => false
  | PyStr (String _ _) => true
  end.

(** A converter that indexes past the end of short values,
    [lambda v: v[5]], on values of fewer than six characters. *)
Definition sixth_character (v : string) : result pyval :=
  match String.get 5 v with
  | Some c => Return (PyStr (String c EmptyString))
  | None => Raise (IndexError "string index out of range")
  end.

(** A converter that fails with another class of exception:
    [lambda v: v + 1] raises [TypeError] on every string. *)
Definition plus_one (v : string) : result pyval :=
  Raise (OtherError "TypeError" "can only concatenate str (not int) to str").

(** * Properties *)

(** Closes a decidable goal on concrete data by evaluating its decision. *)
Ltac by_evaluation :=
  refine (bool_decide_unpack _ _); vm_compute; exact I.

(** ** Lists *)

Lemma first_index_None x l : first_index x l = None <-> x ∉ l.
Proof.
  induction l as [|y l IH]; simpl.
  - split; [intros _; apply not_elem_of_nil | done].
  - rewrite not_elem_of_cons. destruct (decide (y = x)) as [->|Hne].
    + split; [done | intros [? _]; done].
    + destruct (first_index x l); simpl.
      * split; [done | intros [_ Hx]; by apply IH in Hx].
      * split; [intros _; split; [congruence | by apply IH] | done].
Qed.

Lemma first_index_Some x l i :
  first_index x l = Some i ->
  l !! i = Some x /\ x ∉ take i l.
Proof.
  revert i. induction l as [|y l IH]; intros i; simpl; [done|].
  destruct (decide (y = x)) as [->|Hne].
  - intros [= <-]. split; [done | apply not_elem_of_nil].
  - destruct (first_index x l) as [j|]; simpl; [|done].
    intros [= <-]. destruct (IH j eq_refl) as [Hj Hnot]. split; [done|].
    simpl. rewrite not_elem_of_cons. split; [congruence | done].
Qed.

Lemma first_index_elem_of x l : x ∈ l -> is_Some (first_index x l).
Proof.
  intros Hx. destruct (first_index x l) eqn:E; [by eexists|].
  by apply first_index_None in E.
Qed.

Lemma list_remove_first_None x l : list_remove_first x l = None <-> x ∉ l.
Proof.
  induction l as [|y l IH]; simpl.
  - split; [intros _; apply not_elem_of_nil | done].
  - rewrite not_elem_of_cons. destruct (decide (y = x)) as [->|Hne].
    + split; [done | intros [? _]; done].
    + destruct (list_remove_first x l); simpl.
      * split; [done | intros [_ Hx]; by apply IH in Hx].
      * split; [intros _; split; [congruence | by apply IH] | done].
Qed.

Lemma discard_nil x : discard x [] = [].
Proof. reflexivity. Qed.

Lemma discard_cons_eq x l : discard x (x :: l) = l.
Proof. unfold discard. simpl. by rewrite decide_True. Qed.

Lemma discard_cons_ne x y l : y <> x -> discard x (y :: l) = y :: discard x l.
Proof.
  intros Hne. unfold discard. simpl. rewrite decide_False by done.
  by destruct (list_remove_first x l).
Qed.

Lemma discard_not_elem_of x l : x ∉ l -> discard x l = l.
Proof.
  intros Hx. unfold discard. apply list_remove_first_None in Hx. by rewrite Hx.
Qed.

(** [discard] takes out exactly the first occurrence. *)
Lemma discard_app x l1 l2 : x ∉ l1 -> discard x (l1 ++ x :: l2) = l1 ++ l2.
Proof.
  induction l1 as [|y l1 IH]; simpl; intros Hx.
  - apply discard_cons_eq.
  - apply not_elem_of_cons in Hx as [Hne Hx].
    rewrite discard_cons_ne by congruence. by rewrite IH.
Qed.

Lemma discard_sublist x l : discard x l `sublist_of` l.
Proof.
  induction l as [|y l IH]; [done|].
  destruct (decide (y = x)) as [->|Hne].
  - rewrite discard_cons_eq. by apply sublist_cons.
  - rewrite discard_cons_ne by done. by apply sublist_skip.
Qed.

Lemma length_discard x l :
  length (discard x l) = if bool_decide (x ∈ l) then pred (length l) else length l.
Proof.
  case_bool_decide as Hx; [|by rewrite discard_not_elem_of].
  apply list_elem_of_split_l in Hx as (l1 & l2 & -> & Hx).
  rewrite discard_app by done. rewrite !length_app. simpl. lia.
Qed.

Lemma first_index_intro x l i :
  l !! i = Some x -> x ∉ take i l -> first_index x l = Some i.
Proof.
  revert i. induction l as [|y l IH]; intros [|i]; simpl; try done.
  - intros [= ->] _. by rewrite decide_True.
  - intros Hi Hnot. apply not_elem_of_cons in Hnot as [Hne Hnot].
    rewrite decide_False by congruence. by rewrite (IH i Hi Hnot).
Qed.

(** A sub-list sits at increasing positions of the list it is taken from. *)
Lemma sublist_positions (l1 l2 : list string) :
  l1 `sublist_of` l2 ->
  exists ps : list nat,
    StronglySorted lt ps /\ Forall2 (fun x p => l2 !! p = Some x) l1 ps.
Proof.
  assert (Hmap : forall ps, StronglySorted lt ps -> StronglySorted lt (S <$> ps)).
  { induction 1 as [|p ps Hs IH Hall]; simpl; constructor; [done|].
    apply Forall_fmap. eapply Forall_impl; [exact Hall|]. simpl. lia. }
  induction 1 as [|x l1 l2 Hsub (ps & Hs & Hps)|x l1 l2 Hsub (ps & Hs & Hps)].
  - exists []. split; constructor.
  - exists (0 :: (S <$> ps)). split.
    + constructor; [by apply Hmap|]. apply Forall_fmap, Forall_true. simpl. lia.
    + constructor; [done|]. by apply Forall2_fmap_r.
  - exists (S <$> ps). split; [by apply Hmap|]. by apply Forall2_fmap_r.
Qed.

Lemma discard_last x l i :
  l !! i = Some x -> x ∉ take i l -> i + 1 = length l ->
  discard x l = take i l.
Proof.
  intros Hi Hnot Hlen.
  rewrite <- (take_drop_middle l i x Hi) at 1.
  rewrite discard_app by done.
  rewrite drop_ge by lia. apply app_nil_r.
Qed.

Lemma discard_only_occurrence x l l1 l2 :
  l `sublist_of` l1 ++ x :: l2 -> x ∉ l1 -> x ∉ l2 -> x ∉ discard x l.
Proof.
  intros Hsub H1 H2.
  apply sublist_app_r in Hsub as (a1 & a2 & -> & Ha1 & Ha2).
  assert (x ∉ a1) as Hx1 by (intros Hx; eapply H1, elem_of_sublist; eauto).
  apply sublist_cons_r in Ha2 as [Ha2 | (a2' & -> & Ha2)].
  - assert (x ∉ a2) as Hx2 by (intros Hx; eapply H2, elem_of_sublist; eauto).
    rewrite discard_not_elem_of; rewrite not_elem_of_app; done.
  - assert (x ∉ a2') as Hx2 by (intros Hx; eapply H2, elem_of_sublist; eauto).
    rewrite discard_app by done. by rewrite not_elem_of_app.
Qed.

Lemma discard_elem_of_ne x l : x ∈ l -> discard x l <> l.
Proof.
  intros Hx Heq. apply (f_equal length) in Heq.
  rewrite length_discard, bool_decide_true in Heq by done.
  destruct l; [by apply elem_of_nil in Hx | simpl in Heq; lia].
Qed.

(** ** The queries, as functions of the two lists *)

Lemma remove_if_present_run x s :
  cl.remove_if_present x s =
  (Return tt, cl.set_arguments (discard x (cl.arguments s)) s).
Proof.
  unfold cl.remove_if_present, cl.arguments_remove, list_contains, bind, gets.
  case_bool_decide as Hx.
  - destruct (list_remove_first x (cl.arguments s)) as [l|] eqn:E.
    + unfold discard. by rewrite E.
    + by apply list_remove_first_None in E.
  - rewrite discard_not_elem_of by done. by destruct s.
Qed.

Lemma flag_run name s :
  cl.flag name s =
  if bool_decide (name ∈ cl._original_arguments s)
  then (Return true, cl.set_arguments (discard name (cl.arguments s)) s)
  else (Return false, s).
Proof.
  unfold cl.flag, try_except, bind, gets, lift, list_index.
  case_bool_decide as Hx.
  - destruct (first_index_elem_of _ _ Hx) as [i ->].
    by rewrite remove_if_present_run.
  - apply first_index_None in Hx. by rewrite Hx.
Qed.

Section OptionRun.

Context {V : Type}.
Implicit Types (default missing : V) (convert : string -> result V).

Lemma option_run_absent name default missing convert s :
  first_index name (cl._original_arguments s) = None ->
  cl.option name default missing convert s = (Return default, s).
Proof.
  intros E. unfold cl.option, try_except, bind, gets, lift, list_index.
  by rewrite E.
Qed.

Lemma option_run_last name default missing convert s i :
  first_index name (cl._original_arguments s) = Some i ->
  cl._original_arguments s !! (i + 1) = None ->
  cl.option name default missing convert s =
  (Return missing, cl.set_arguments (discard name (cl.arguments s)) s).
Proof.
  intros E Hv. unfold cl.option, try_except, bind, gets, lift, list_index.
  rewrite E, remove_if_present_run. unfold list_getitem.
  cbn [cl.set_arguments cl._original_arguments]. by rewrite Hv.
Qed.

Lemma option_run_value name default missing convert s i value :
  first_index name (cl._original_arguments s) = Some i ->
  cl._original_arguments s !! (i + 1) = Some value ->
  cl.option name default missing convert s =
  let s' :=
    cl.set_arguments (discard value (discard name (cl.arguments s))) s in
  match convert value with
  | Return v => (Return v, s')
  | Raise e =>
      if is_ValueError e then (Return default, s')
      else if is_IndexError e then (Return missing, s')
      else (Raise e, s')
  end.
Proof.
  intros E Hv. unfold cl.option, try_except, bind, gets, lift, list_index.
  rewrite E, remove_if_present_run. unfold list_getitem.
  cbn [cl.set_arguments cl._original_arguments]. rewrite Hv.
  rewrite remove_if_present_run. cbn.
  destruct (convert value) as [v|e]; [done|].
  by destruct e.
Qed.

End OptionRun.

(** ** Reachable states *)

Lemma run_query_original {V} (q : query V) s :
  cl._original_arguments (run_query q s) = cl._original_arguments s.
Proof.
  destruct q as [name|name default missing convert]; simpl.
  - rewrite flag_run. by case_bool_decide.
  - destruct (first_index name (cl._original_arguments s)) as [i|] eqn:E.
    + destruct (cl._original_arguments s !! (i + 1)) as [value|] eqn:Hv.
      * rewrite (option_run_value _ _ _ _ _ _ _ E Hv). cbn zeta.
        destruct (convert value) as [v|e]; [done|].
        by destruct (is_ValueError e), (is_IndexError e).
      * by rewrite (option_run_last _ _ _ _ _ _ E Hv).
    + by rewrite option_run_absent.
Qed.

Lemma run_query_sublist {V} (q : query V) s :
  cl.arguments (run_query q s) `sublist_of` cl.arguments s.
Proof.
  destruct q as [name|name default missing convert]; simpl.
  - rewrite flag_run. case_bool_decide; [apply discard_sublist | done].
  - destruct (first_index name (cl._original_arguments s)) as [i|] eqn:E.
    + destruct (cl._original_arguments s !! (i + 1)) as [value|] eqn:Hv.
      * rewrite (option_run_value _ _ _ _ _ _ _ E Hv). cbn zeta.
        assert (discard value (discard name (cl.arguments s))
                  `sublist_of` cl.arguments s) as Hsub.
        { etrans; apply discard_sublist. }
        destruct (convert value) as [v|e]; [done|].
        by destruct (is_ValueError e), (is_IndexError e).
      * rewrite (option_run_last _ _ _ _ _ _ E Hv). apply discard_sublist.
    + by rewrite option_run_absent.
Qed.

Lemma run_queries_snoc {V} (qs : list (query V)) q s :
  run_queries (qs ++ [q]) s = run_query q (run_queries qs s).
Proof. unfold run_queries. by rewrite fold_left_app. Qed.

Lemma run_queries_original {V} (qs : list (query V)) raw :
  cl._original_arguments (run_queries qs (cl.start raw)) = raw.
Proof.
  induction qs as [|q qs IH] using rev_ind; [done|].
  by rewrite run_queries_snoc, run_query_original.
Qed.

Lemma run_queries_sublist {V} (qs : list (query V)) raw :
  cl.arguments (run_queries qs (cl.start raw)) `sublist_of` raw.
Proof.
  induction qs as [|q qs IH] using rev_ind; [done|].
  rewrite run_queries_snoc. etrans; [apply run_query_sublist | done].
Qed.

(** ** Glob expansion *)

Section GlobExpandFacts.

Variable platform : string.
Variable glob : string -> list string.

Lemma glob_expand_step_expansion acc arg :
  cl.glob_expand_step glob acc arg = acc ++ expansion_of glob arg.
Proof.
  unfold cl.glob_expand_step, expansion_of.
  case_bool_decide as Hg; destruct (glob arg); naive_solver.
Qed.

Lemma glob_expand_loop acc args :
  fold_left (cl.glob_expand_step glob) args acc =
  acc ++ flat_map (expansion_of glob) args.
Proof.
  revert acc. induction args as [|arg args IH]; intros acc; simpl.
  - by rewrite app_nil_r.
  - by rewrite IH, glob_expand_step_expansion, app_assoc.
Qed.

Lemma glob_expand_flat_map args :
  str_contains "win32" platform = true ->
  cl._glob_expand platform glob args = flat_map (expansion_of glob) args.
Proof.
  intros Hwin. unfold cl._glob_expand. rewrite Hwin. apply glob_expand_loop.
Qed.

Lemma glob_expand_elsewhere args :
  str_contains "win32" platform = false ->
  cl._glob_expand platform glob args = args.
Proof. intros Hwin. unfold cl._glob_expand. by rewrite Hwin. Qed.

Lemma flat_map_expansion_literal args :
  Forall (fun arg => glob arg = [arg] \/ glob arg = []) args ->
  flat_map (expansion_of glob) args = args.
Proof.
  induction 1 as [|arg args Harg _ IH]; [done|]. simpl. rewrite IH.
  unfold expansion_of. by destruct Harg as [-> | ->].
Qed.

End GlobExpandFacts.

(** ** The flag query *)

(** C7: [flag(name)] returns [True] exactly when [name] is one of the
    tokens of the original arguments, compared whole, whatever is left of
    the working arguments after any earlier queries; when it is none of
    them the call returns [False] and changes nothing. *)
Theorem flag_true_iff_in_original {V} (qs : list (query V)) (raw : list string)
    (name : string) :
  let s := run_queries qs (cl.start raw) in
  (fst (cl.flag name s) = Return true <-> name ∈ raw) /\
  (name ∉ raw -> cl.flag name s = (Return false, s)).
Proof.
  intros s. rewrite flag_run. unfold s. rewrite run_queries_original.
  case_bool_decide as Hx; simpl; split; try done.
Qed.

Lemma flag_true_iff_in_original_witness :
  fst (cl.flag "-r" (cl.start ["-v"; "-r"; "x"])) = Return true /\
  cl.flag "-r" (cl.start ["-rf"; "--r"; "r"]) =
    (Return false, cl.start ["-rf"; "--r"; "r"]).
Proof.
  split.
  - apply (proj1 (flag_true_iff_in_original (V:=pyval) [] ["-v"; "-r"; "x"] "-r")).
    by_evaluation.
  - apply (proj2 (flag_true_iff_in_original (V:=pyval) [] ["-rf"; "--r"; "r"] "-r")).
    by_evaluation.
Defined.

(** ** The option query *)

(** C6: when [name] is none of the original arguments,
    [option(name, default, missing, convert)] returns [default] as it is,
    without applying [convert], and leaves both lists as they were. *)
Theorem option_absent_returns_default {V} (qs : list (query V))
    (raw : list string) (name : string) (default missing : V)
    (convert : string -> result V) :
  name ∉ raw ->
  let s := run_queries qs (cl.start raw) in
  cl.option name default missing convert s = (Return default, s).
Proof.
  intros Hx s. apply option_run_absent. unfold s.
  rewrite run_queries_original. by apply first_index_None.
Qed.

Lemma option_absent_returns_default_witness :
  cl.option "-n" (PyInt 0) (PyStr "") py_int (cl.start ["-r"; "12"; "x"]) =
  (Return (PyInt 0), cl.start ["-r"; "12"; "x"]).
Proof.
  apply (option_absent_returns_default (V:=pyval) [] ["-r"; "12"; "x"] "-n").
  by_evaluation.
Defined.

(** C5: when the first occurrence of [name] in the original arguments is
    their last element, [option] returns [missing] as it is, whatever
    [convert] is, and removes [name] from the working arguments if it is
    still there; asked of the freshly loaded module, it leaves the working
    arguments without their last element. *)
Theorem option_without_value_returns_missing {V} (qs : list (query V))
    (raw : list string) (name : string) (default missing : V)
    (convert : string -> result V) (i : nat) :
  raw !! i = Some name ->
  name ∉ take i raw ->
  i + 1 = length raw ->
  let s := run_queries qs (cl.start raw) in
  cl.option name default missing convert s =
    (Return missing, cl.Globals (discard name (cl.arguments s)) raw) /\
  cl.option name default missing convert (cl.start raw) =
    (Return missing, cl.Globals (take i raw) raw).
Proof.
  intros Hi Hnot Hlen s.
  pose proof (first_index_intro _ _ _ Hi Hnot) as E.
  assert (raw !! (i + 1) = None) as Hv by (apply lookup_ge_None; lia).
  split.
  - rewrite (option_run_last name default missing convert s i).
    + unfold cl.set_arguments, s. by rewrite run_queries_original.
    + unfold s. by rewrite run_queries_original.
    + unfold s. by rewrite run_queries_original.
  - rewrite (option_run_last name default missing convert (cl.start raw) i E Hv).
    unfold cl.set_arguments. simpl. by rewrite (discard_last _ _ i).
Qed.

Lemma option_without_value_returns_missing_witness :
  option_defaults "-f" (cl.start ["-f"]) =
  (Return (PyStr ""), cl.Globals [] ["-f"]).
Proof.
  apply (option_without_value_returns_missing (V:=pyval) [] ["-f"] "-f"
           PyNone (PyStr "") py_str 0).
  - reflexivity.
  - by_evaluation.
  - reflexivity.
Defined.

(** C2: when the first occurrence of [name] in the original arguments is at
    index [i] and a token [value] stands at index [i + 1] there, then after
    any earlier queries [option] removes the first [name] left in the
    working arguments, then the first [value] left in them, and returns
    what [convert] returns on [value]: the value is the neighbour of [name]
    in the original order. *)
Theorem option_takes_original_neighbour {V} (qs : list (query V))
    (raw : list string) (name : string) (default missing : V)
    (convert : string -> result V) (i : nat) (value : string) (v : V) :
  raw !! i = Some name ->
  name ∉ take i raw ->
  raw !! (i + 1) = Some value ->
  convert value = Return v ->
  let s := run_queries qs (cl.start raw) in
  cl.option name default missing convert s =
    (Return v,
     cl.Globals (discard value (discard name (cl.arguments s))) raw).
Proof.
  intros Hi Hnot Hv Hconv s.
  pose proof (first_index_intro _ _ _ Hi Hnot) as E.
  rewrite (option_run_value name default missing convert s i value).
  - cbn zeta. rewrite Hconv. unfold cl.set_arguments, s.
    by rewrite run_queries_original.
  - unfold s. by rewrite run_queries_original.
  - unfold s. by rewrite run_queries_original.
Qed.

Lemma option_takes_original_neighbour_witness :
  option_defaults "-f" (cl.start ["-r"; "-f"; "infile.txt"; "extra"]) =
  (Return (PyStr "infile.txt"),
   cl.Globals ["-r"; "extra"] ["-r"; "-f"; "infile.txt"; "extra"]).
Proof.
  apply (option_takes_original_neighbour (V:=pyval) []
           ["-r"; "-f"; "infile.txt"; "extra"] "-f" PyNone (PyStr "") py_str
           1 "infile.txt" (PyStr "infile.txt")).
  - reflexivity.
  - by_evaluation.
  - reflexivity.
  - reflexivity.
Defined.

(** The value is not the next token left: once [flag("-r")] has consumed
    the token between ["-f"] and ["x"], [option("-f")] still returns
    ["-r"]. *)
Example option_after_flag_consumed_neighbour :
  option_defaults "-f"
    (run_queries (V:=pyval) [QFlag "-r"] (cl.start ["-f"; "-r"; "x"])) =
  (Return (PyStr "-r"), cl.Globals ["x"] ["-f"; "-r"; "x"]).
Proof. reflexivity. Qed.

(** C10: when [name] has a following token in the original arguments and
    [convert] raises [ValueError] on it, [option] returns [default]; the
    removals of [name] and of the value made before the conversion stay,
    so that, asked of the freshly loaded module, the call leaves two
    tokens fewer, where an absent option leaves all of them. *)
Theorem option_conversion_ValueError_returns_default {V} (qs : list (query V))
    (raw : list string) (name : string) (default missing : V)
    (convert : string -> result V) (i : nat) (value msg : string) :
  raw !! i = Some name ->
  name ∉ take i raw ->
  raw !! (i + 1) = Some value ->
  convert value = Raise (ValueError msg) ->
  let s := run_queries qs (cl.start raw) in
  cl.option name default missing convert s =
    (Return default,
     cl.Globals (discard value (discard name (cl.arguments s))) raw) /\
  length (cl.arguments
            (snd (cl.option name default missing convert (cl.start raw)))) + 2
    = length raw.
Proof.
  intros Hi Hnot Hv Hconv s.
  pose proof (first_index_intro _ _ _ Hi Hnot) as E.
  split.
  - rewrite (option_run_value name default missing convert s i value).
    + cbn zeta. rewrite Hconv. unfold cl.set_arguments, s. simpl.
      by rewrite run_queries_original.
    + unfold s. by rewrite run_queries_original.
    + unfold s. by rewrite run_queries_original.
  - rewrite (option_run_value name default missing convert (cl.start raw) i value E Hv).
    cbn zeta. rewrite Hconv. simpl.
    rewrite <- (take_drop_middle raw i name Hi) at 1 2.
    rewrite discard_app by done.
    assert (drop (S i) raw = value :: drop (S (S i)) raw) as ->.
    { apply drop_S. by rewrite <- Hv, Nat.add_1_r. }
    assert (value ∈ take i raw ++ value :: drop (S (S i)) raw) as Hin.
    { apply elem_of_app. right. apply elem_of_cons. by left. }
    rewrite length_discard, bool_decide_true by done.
    rewrite !length_app. simpl. lia.
Qed.

Lemma option_conversion_ValueError_returns_default_witness :
  cl.option "-n" (PyInt 0) (PyStr "") py_int (cl.start ["-n"; "abc"; "x"]) =
  (Return (PyInt 0), cl.Globals ["x"] ["-n"; "abc"; "x"]).
Proof.
  apply (option_conversion_ValueError_returns_default (V:=pyval) []
           ["-n"; "abc"; "x"] "-n" (PyInt 0) (PyStr "") py_int 0 "abc"
           "invalid literal for int() with base 10").
  - reflexivity.
  - by_evaluation.
  - reflexivity.
  - reflexivity.
Defined.

(** C1: a failure of [convert] does not always reach the caller.  With the
    arguments [-n abc], [int] raises [ValueError] on ["abc"], and
    [option("-n", default=0, convert=int)] returns [0]: the clause
    [except ValueError], written for an option that is not found, also
    takes the failure of the conversion inside the same [try]. *)
Theorem option_catches_conversion_ValueError :
  py_int "abc" = Raise (ValueError "invalid literal for int() with base 10") /\
  cl.option "-n" (PyInt 0) (PyStr "") py_int (cl.start ["-n"; "abc"]) =
    (Return (PyInt 0), cl.Globals [] ["-n"; "abc"]) /\
  ~ conversion_failure_propagates ["-n"; "abc"] "-n" (PyInt 0) (PyStr "") py_int.
Proof.
  split; [reflexivity|]. split; [reflexivity|].
  intros Hprop. specialize (Hprop 0 "abc" _ eq_refl eq_refl eq_refl).
  discriminate Hprop.
Qed.

(** X6: an exception of [convert] that is neither a [ValueError] nor an
    [IndexError] does escape, after the removals: the working arguments
    have lost [name] and the value when the caller catches it. *)
Lemma option_conversion_OtherError_escapes {V} (s : cl.globals)
    (name : string) (default missing : V) (convert : string -> result V)
    (i : nat) (value cls msg : string) :
  first_index name (cl._original_arguments s) = Some i ->
  cl._original_arguments s !! (i + 1) = Some value ->
  convert value = Raise (OtherError cls msg) ->
  cl.option name default missing convert s =
    (Raise (OtherError cls msg),
     cl.set_arguments (discard value (discard name (cl.arguments s))) s).
Proof.
  intros E Hv Hconv.
  rewrite (option_run_value name default missing convert s i value E Hv).
  cbn zeta. by rewrite Hconv.
Qed.

(** X5: an [IndexError] of [convert] is taken for a missing value:
    [option] returns [missing], and the removals of [name] and of the
    value stay. *)
Lemma option_conversion_IndexError_returns_missing {V} (s : cl.globals)
    (name : string) (default missing : V) (convert : string -> result V)
    (i : nat) (value msg : string) :
  first_index name (cl._original_arguments s) = Some i ->
  cl._original_arguments s !! (i + 1) = Some value ->
  convert value = Raise (IndexError msg) ->
  cl.option name default missing convert s =
    (Return missing,
     cl.set_arguments (discard value (discard name (cl.arguments s))) s).
Proof.
  intros E Hv Hconv.
  rewrite (option_run_value name default missing convert s i value E Hv).
  cbn zeta. by rewrite Hconv.
Qed.

(** ** The working arguments *)

(** C3: after any sequence of [flag] and [option] calls on the freshly
    loaded module, the working arguments are a sub-sequence of the original
    ones, in the same order: every one of them is an original argument, and
    they stand at strictly increasing positions of the original list, which
    is itself unchanged. *)
Theorem arguments_subsequence_of_original {V} (qs : list (query V))
    (raw : list string) :
  let s := run_queries qs (cl.start raw) in
  cl.arguments s `sublist_of` raw /\
  Forall (fun x => x ∈ raw) (cl.arguments s) /\
  (exists ps : list nat,
     StronglySorted lt ps /\
     Forall2 (fun x p => raw !! p = Some x) (cl.arguments s) ps) /\
  cl._original_arguments s = raw.
Proof.
  intros s. pose proof (run_queries_sublist qs raw) as Hsub. fold s in Hsub.
  split_and!.
  - done.
  - apply Forall_forall. intros x Hx. by eapply elem_of_sublist.
  - by apply sublist_positions.
  - apply run_queries_original.
Qed.

(** C4, as the specification states it, fails on a flag given twice: with
    the arguments [-r -r], the second [flag("-r")] removes the second
    token. *)
Lemma flag_twice_removes_second_occurrence :
  "-r" ∈ ["-r"; "-r"] /\ ~ flag_twice_removes_once ["-r"; "-r"] "-r".
Proof.
  split; [by_evaluation|].
  intros (_ & _ & Heq). vm_compute in Heq. discriminate Heq.
Qed.

(** C4, amended: for [name] among the original arguments, two calls of
    [flag(name)] in a row both return [True]; each removes the first
    [name] left in the working arguments, if any.  The second call removes
    nothing exactly when no [name] is left after the first, as is the case
    whenever [name] occurs only once in the original arguments. *)
Theorem flag_twice_in_a_row {V} (qs : list (query V)) (raw : list string)
    (name : string) :
  name ∈ raw ->
  let s := run_queries qs (cl.start raw) in
  let s1 := snd (cl.flag name s) in
  let s2 := snd (cl.flag name s1) in
  fst (cl.flag name s) = Return true /\
  fst (cl.flag name s1) = Return true /\
  cl.arguments s1 = discard name (cl.arguments s) /\
  cl.arguments s2 = discard name (cl.arguments s1) /\
  (s2 = s1 <-> name ∉ cl.arguments s1) /\
  (forall l1 l2, raw = l1 ++ name :: l2 -> name ∉ l1 -> name ∉ l2 -> s2 = s1).
Proof.
  intros Hx s s1 s2.
  assert (cl._original_arguments s = raw) as Horig
    by apply run_queries_original.
  assert (cl.flag name s =
          (Return true, cl.set_arguments (discard name (cl.arguments s)) s))
    as H1.
  { rewrite flag_run, Horig. by rewrite bool_decide_true. }
  assert (cl.flag name s1 =
          (Return true, cl.set_arguments (discard name (cl.arguments s1)) s1))
    as H2.
  { assert (cl._original_arguments s1 = raw) as Horig1
      by (unfold s1; by rewrite H1).
    rewrite flag_run, Horig1. by rewrite bool_decide_true. }
  assert (s2 = s1 <-> name ∉ cl.arguments s1) as Hiff.
  { unfold s2. rewrite H2. simpl. split.
    - intros Heq Hin. apply (discard_elem_of_ne name (cl.arguments s1) Hin).
      by rewrite <- Heq at 2.
    - intros Hnot. rewrite discard_not_elem_of by done. by destruct s1. }
  split_and!.
  - by rewrite H1.
  - by rewrite H2.
  - unfold s1. by rewrite H1.
  - unfold s2. by rewrite H2.
  - exact Hiff.
  - intros l1 l2 -> Hl1 Hl2. apply Hiff. unfold s1. rewrite H1. simpl.
    apply (discard_only_occurrence name (cl.arguments s) l1 l2); [|done..].
    apply run_queries_sublist.
Qed.

Lemma flag_twice_in_a_row_witness :
  let s1 := snd (cl.flag "-r" (cl.start ["-r"; "x"; "-r"])) in
  let s2 := snd (cl.flag "-r" s1) in
  fst (cl.flag "-r" s1) = Return true /\
  cl.arguments s1 = ["x"; "-r"] /\
  cl.arguments s2 = ["x"].
Proof.
  destruct (flag_twice_in_a_row (V:=pyval) [] ["-r"; "x"; "-r"] "-r")
    as (_ & Hret & Hs1 & Hs2 & _).
  - by_evaluation.
  - exact (conj Hret (conj Hs1 Hs2)).
Defined.

(** ** Glob expansion *)

(** C8: on a platform whose name contains [win32], the expansion goes
    through the arguments in order and independently: an argument [glob]
    matches is replaced, in place, by its matches in the order [glob] gives
    them, an argument it does not match is kept as it is, and what comes of
    one argument stands before what comes of the next.  The expansion is a
    total function of the arguments and of [glob]. *)
Theorem glob_expand_on_windows (platform : string)
    (glob : string -> list string) :
  str_contains "win32" platform = true ->
  let expand := cl._glob_expand platform glob in
  expand [] = [] /\
  (forall arg rest, glob arg <> [] -> expand (arg :: rest) = glob arg ++ expand rest) /\
  (forall arg rest, glob arg = [] -> expand (arg :: rest) = arg :: expand rest) /\
  (forall args1 args2, expand (args1 ++ args2) = expand args1 ++ expand args2) /\
  (forall args, expand args = flat_map (expansion_of glob) args).
Proof.
  intros Hwin expand.
  assert (forall args, expand args = flat_map (expansion_of glob) args) as Hflat.
  { intros args. by apply glob_expand_flat_map. }
  split_and!.
  - by rewrite Hflat.
  - intros arg rest Hg. rewrite !Hflat. simpl. f_equal.
    unfold expansion_of. by destruct (glob arg).
  - intros arg rest Hg. rewrite !Hflat. simpl.
    unfold expansion_of. by rewrite Hg.
  - intros args1 args2. rewrite !Hflat. apply flat_map_app.
  - exact Hflat.
Qed.

Lemma glob_expand_on_windows_witness :
  cl._glob_expand "win32" two_csv_files ["-r"; "*.csv"; "*.pyc"; "b.csv"] =
  ["-r"; "a.csv"; "b.csv"; "*.pyc"; "b.csv"].
Proof.
  destruct (glob_expand_on_windows "win32" two_csv_files eq_refl)
    as (_ & _ & _ & _ & Hflat).
  exact (Hflat ["-r"; "*.csv"; "*.pyc"; "b.csv"]).
Defined.

(** C9: on a list of literal arguments, each of which [glob] either matches
    with exactly itself or does not match at all, the expansion returns the
    list as it is, on every platform; expanding its result again changes
    nothing. *)
Theorem glob_expand_literal_idempotent (platform : string)
    (glob : string -> list string) (args : list string) :
  Forall (fun arg => glob arg = [arg] \/ glob arg = []) args ->
  cl._glob_expand platform glob args = args /\
  cl._glob_expand platform glob (cl._glob_expand platform glob args) =
    cl._glob_expand platform glob args.
Proof.
  intros Hlit.
  assert (cl._glob_expand platform glob args = args) as Hid.
  { destruct (str_contains "win32" platform) eqn:Hwin.
    - rewrite glob_expand_flat_map by done.
      by apply flat_map_expansion_literal.
    - by apply glob_expand_elsewhere. }
  by rewrite !Hid.
Qed.

Lemma glob_expand_literal_idempotent_witness :
  cl._glob_expand "win32" two_csv_files ["-r"; "a.csv"; "notes.txt"] =
  ["-r"; "a.csv"; "notes.txt"].
Proof.
  apply (glob_expand_literal_idempotent "win32" two_csv_files
           ["-r"; "a.csv"; "notes.txt"]).
  by_evaluation.
Defined.

(** * Further properties of the module *)

(** ** Removals commute *)

Lemma discard_comm x y l : discard x (discard y l) = discard y (discard x l).
Proof.
  induction l as [|z l IH]; [done|].
  destruct (decide (z = x)) as [Hx|Hx], (decide (z = y)) as [Hy|Hy]; subst;
    repeat (rewrite discard_cons_eq || rewrite discard_cons_ne by done);
    congruence.
Qed.

Lemma discard_all_discard x xs l :
  discard x (discard_all xs l) = discard_all xs (discard x l).
Proof.
  revert l. induction xs as [|y xs IH]; intros l; simpl; [done|].
  by rewrite IH, discard_comm.
Qed.

Lemma discard_all_comm xs ys l :
  discard_all xs (discard_all ys l) = discard_all ys (discard_all xs l).
Proof.
  revert l. induction xs as [|x xs IH]; intros l; simpl; [done|].
  by rewrite discard_all_discard, IH.
Qed.

Lemma discard_all_app xs ys l :
  discard_all (xs ++ ys) l = discard_all ys (discard_all xs l).
Proof. unfold discard_all. apply fold_left_app. Qed.

Lemma length_discard_all xs l :
  length l <= length (discard_all xs l) + length xs.
Proof.
  revert l. induction xs as [|x xs IH]; intros l; simpl; [lia|].
  specialize (IH (discard x l)). rewrite length_discard in IH.
  case_bool_decide; lia.
Qed.

Lemma filter_discard (P : string -> Prop) `{!forall x, Decision (P x)} x l :
  ~ P x -> filter P (discard x l) = filter P l.
Proof.
  intros HP. induction l as [|y l IH]; [done|].
  destruct (decide (y = x)) as [->|Hne].
  - rewrite discard_cons_eq. by rewrite filter_cons_False.
  - rewrite discard_cons_ne by done. by rewrite !filter_cons, IH.
Qed.

Lemma filter_discard_all (P : string -> Prop) `{!forall x, Decision (P x)} xs l :
  Forall (fun x => ~ P x) xs -> filter P (discard_all xs l) = filter P l.
Proof.
  intros Hxs. revert l. induction Hxs as [|x xs Hx _ IH]; intros l; simpl; [done|].
  by rewrite IH, filter_discard.
Qed.

(** ** What a query returns and what it leaves *)

Lemma set_arguments_same s : cl.set_arguments (cl.arguments s) s = s.
Proof. by destruct s. Qed.

Lemma flag_result name s :
  fst (cl.flag name s) = Return (bool_decide (name ∈ cl._original_arguments s)).
Proof. rewrite flag_run. by case_bool_decide. Qed.

Lemma option_result {V} name (default missing : V) convert s :
  fst (cl.option name default missing convert s) =
  match first_index name (cl._original_arguments s) with
  | None => Return default
  | Some i =>
      match cl._original_arguments s !! (i + 1) with
      | None => Return missing
      | Some value =>
          match convert value with
          | Return v => Return v
          | Raise e =>
              if is_ValueError e then Return default
              else if is_IndexError e then Return missing
              else Raise e
          end
      end
  end.
Proof.
  destruct (first_index name (cl._original_arguments s)) as [i|] eqn:E.
  - destruct (cl._original_arguments s !! (i + 1)) as [value|] eqn:Hv.
    + rewrite (option_run_value _ _ _ _ _ _ _ E Hv). cbn zeta.
      destruct (convert value) as [v|e]; [done|].
      by destruct (is_ValueError e), (is_IndexError e).
    + by rewrite (option_run_last _ _ _ _ _ _ E Hv).
  - by rewrite option_run_absent.
Qed.

Lemma run_query_consumed {V} (q : query V) s :
  run_query q s =
  cl.set_arguments
    (discard_all (consumed (cl._original_arguments s) q) (cl.arguments s)) s.
Proof.
  destruct q as [name|name default missing convert]; simpl.
  - rewrite flag_run. case_bool_decide; simpl; [done|].
    by rewrite set_arguments_same.
  - destruct (first_index name (cl._original_arguments s)) as [i|] eqn:E.
    + destruct (cl._original_arguments s !! (i + 1)) as [value|] eqn:Hv.
      * rewrite (option_run_value _ _ _ _ _ _ _ E Hv). cbn zeta.
        destruct (convert value) as [v|e]; [done|].
        by destruct (is_ValueError e), (is_IndexError e).
      * by rewrite (option_run_last _ _ _ _ _ _ E Hv).
    + rewrite option_run_absent by done. simpl. by rewrite set_arguments_same.
Qed.

Lemma run_query_comm {V} (q1 q2 : query V) s :
  run_query q1 (run_query q2 s) = run_query q2 (run_query q1 s).
Proof.
  rewrite (run_query_consumed q1 (run_query q2 s)).
  rewrite (run_query_consumed q2 (run_query q1 s)).
  rewrite !run_query_original.
  rewrite (run_query_consumed q1 s), (run_query_consumed q2 s).
  unfold cl.set_arguments. simpl. by rewrite discard_all_comm.
Qed.

Lemma run_queries_consumed {V} (qs : list (query V)) raw :
  run_queries qs (cl.start raw) =
  cl.Globals (discard_all (concat (map (consumed raw) qs)) raw) raw.
Proof.
  induction qs as [|q qs IH] using rev_ind; [done|].
  rewrite run_queries_snoc, run_query_consumed, IH. simpl.
  rewrite map_app, concat_app. simpl. rewrite app_nil_r.
  unfold cl.set_arguments. simpl. by rewrite discard_all_app.
Qed.

(** ** Queries do not depend on one another *)

(** X1: what a query returns or raises does not depend on the queries made
    before it: after any sequence of queries, [flag] and [option] answer
    as they do on the freshly loaded module. *)
Theorem query_result_independent_of_history {V W} (qs : list (query V))
    (raw : list string) :
  let s := run_queries qs (cl.start raw) in
  (forall name, fst (cl.flag name s) = fst (cl.flag name (cl.start raw))) /\
  (forall name (default missing : W) convert,
     fst (cl.option name default missing convert s) =
     fst (cl.option name default missing convert (cl.start raw))).
Proof.
  intros s. split.
  - intros name. rewrite !flag_result. unfold s.
    by rewrite run_queries_original.
  - intros name default missing convert. rewrite !option_result. unfold s.
    by rewrite run_queries_original.
Qed.

(** X2: the order of the queries does not matter for what they leave: two
    sequences made of the same queries take any state to the same state. *)
Theorem run_queries_permutation {V} (qs qs' : list (query V)) (s : cl.globals) :
  qs ≡ₚ qs' -> run_queries qs s = run_queries qs' s.
Proof.
  intros Hperm. revert s.
  induction Hperm as [|q qs qs' _ IH|q1 q2 qs|qs1 qs2 qs3 _ IH1 _ IH2];
    intros s.
  - done.
  - apply IH.
  - unfold run_queries. simpl. by rewrite run_query_comm.
  - by rewrite IH1.
Qed.

Lemma run_queries_permutation_witness :
  run_queries [QFlag "-r"; QOption "-f" PyNone (PyStr "") py_str]
    (cl.start ["-f"; "-r"; "-r"; "x"]) =
  run_queries [QOption "-f" PyNone (PyStr "") py_str; QFlag "-r"]
    (cl.start ["-f"; "-r"; "-r"; "x"]).
Proof.
  apply (run_queries_permutation
           [QFlag "-r"; QOption "-f" PyNone (PyStr "") py_str]
           [QOption "-f" PyNone (PyStr "") py_str; QFlag "-r"]).
  apply perm_swap.
Defined.

(** X3: a query takes nothing else out of the working arguments than the
    tokens it looks for.  After any sequence of queries on the freshly
    loaded module, the tokens that are none of the names found and none of
    the option values are all still there, in their original order. *)
Theorem unqueried_tokens_survive {V} (qs : list (query V)) (raw : list string) :
  let looked_for := concat (map (consumed raw) qs) in
  filter (fun x => x ∉ looked_for) (cl.arguments (run_queries qs (cl.start raw))) =
  filter (fun x => x ∉ looked_for) raw.
Proof.
  intros looked_for. rewrite run_queries_consumed. simpl.
  apply filter_discard_all. apply Forall_forall. intros x Hx Hnot. by apply Hnot.
Qed.

(** X12: a call of [flag] makes the working arguments at most one token
    shorter and a call of [option] at most two, in any state. *)
Theorem run_query_removes_at_most {V} (q : query V) (s : cl.globals) :
  length (cl.arguments s) <=
  length (cl.arguments (run_query q s)) +
  match q with QFlag _ => 1 | QOption _ _ _ _ => 2 end.
Proof.
  rewrite run_query_consumed. simpl.
  pose proof (length_discard_all (consumed (cl._original_arguments s) q)
                (cl.arguments s)) as Hlen.
  assert (length (consumed (cl._original_arguments s) q) <=
          match q with QFlag _ => 1 | QOption _ _ _ _ => 2 end) as Hc.
  { destruct q as [name|name default missing convert]; simpl.
    - case_bool_decide; simpl; lia.
    - destruct (first_index name _) as [i|]; simpl; [|lia].
      destruct (_ !! (i + 1)); simpl; lia. }
  lia.
Qed.

(** ** When [option] raises *)

(** X4: [option] raises only what [convert] raised: if a call of [option]
    raises [e], then [name] has a following token in the original
    arguments, [convert] raised [e] on it, and [e] is neither a
    [ValueError] nor an [IndexError]. *)
Theorem option_raises_only_from_convert {V} (s : cl.globals) (name : string)
    (default missing : V) (convert : string -> result V) (e : exn) :
  fst (cl.option name default missing convert s) = Raise e ->
  is_ValueError e = false /\ is_IndexError e = false /\
  exists i value,
    first_index name (cl._original_arguments s) = Some i /\
    cl._original_arguments s !! (i + 1) = Some value /\
    convert value = Raise e.
Proof.
  rewrite option_result.
  destruct (first_index name (cl._original_arguments s)) as [i|]; [|done].
  destruct (cl._original_arguments s !! (i + 1)) as [value|] eqn:Hv; [|done].
  destruct (convert value) as [v|e'] eqn:Hconv; [done|].
  destruct (is_ValueError e') eqn:HV; [done|].
  destruct (is_IndexError e') eqn:HI; [done|].
  intros [= ->]. split_and!; [done|done|]. by exists i, value.
Qed.

Lemma option_raises_only_from_convert_witness :
  exists i value,
    first_index "-n" ["-n"; "7"] = Some i /\
    ["-n"; "7"] !! (i + 1) = Some value /\
    plus_one value =
      Raise (OtherError "TypeError" "can only concatenate str (not int) to str").
Proof.
  apply (option_raises_only_from_convert (cl.start ["-n"; "7"]) "-n"
           PyNone (PyStr "") plus_one).
  reflexivity.
Defined.

Lemma option_conversion_OtherError_escapes_witness :
  cl.option "-n" PyNone (PyStr "") plus_one (cl.start ["-n"; "7"; "x"]) =
  (Raise (OtherError "TypeError" "can only concatenate str (not int) to str"),
   cl.Globals ["x"] ["-n"; "7"; "x"]).
Proof.
  apply (option_conversion_OtherError_escapes (cl.start ["-n"; "7"; "x"]) "-n"
           PyNone (PyStr "") plus_one 0 "7"); reflexivity.
Defined.

Lemma option_conversion_IndexError_returns_missing_witness :
  cl.option "-c" PyNone (PyStr "") sixth_character (cl.start ["-c"; "abc"; "x"]) =
  (Return (PyStr ""), cl.Globals ["x"] ["-c"; "abc"; "x"]).
Proof.
  apply (option_conversion_IndexError_returns_missing
           (cl.start ["-c"; "abc"; "x"]) "-c" PyNone (PyStr "") sixth_character
           0 "abc" "string index out of range"); reflexivity.
Defined.

(** ** [option] with the defaults of its signature *)

(** X7: with [default=None], [missing=''] and [convert=str], [option(name)]
    never raises, and what it returns is true in a condition exactly when
    [name] is among the original arguments and the token after its first
    occurrence is not the empty string. *)
Theorem option_defaults_truthy_iff {V} (qs : list (query V))
    (raw : list string) (name : string) :
  let s := run_queries qs (cl.start raw) in
  exists v,
    fst (option_defaults name s) = Return v /\
    (py_truthy v = true <->
     exists i value,
       raw !! i = Some name /\ (name ∉ take i raw) /\
       raw !! (i + 1) = Some value /\ value <> "").
Proof.
  intros s. unfold option_defaults. rewrite option_result. unfold s.
  rewrite run_queries_original.
  destruct (first_index name raw) as [i|] eqn:E.
  - destruct (raw !! (i + 1)) as [value|] eqn:Hv.
    + exists (PyStr value). split; [done|].
      destruct (first_index_Some _ _ _ E) as [Hi Hnot]. split.
      * intros Ht. exists i, value. split_and!; try done.
        intros ->. discriminate Ht.
      * intros (i' & value' & Hi' & Hnot' & Hv' & Hne).
        rewrite (first_index_intro _ _ _ Hi' Hnot') in E.
        assert (i' = i) as -> by congruence.
        assert (value' = value) as -> by congruence.
        by destruct value.
    + exists (PyStr ""). split; [done|]. split; [done|].
      intros (i' & value' & Hi' & Hnot' & Hv' & _).
      rewrite (first_index_intro _ _ _ Hi' Hnot') in E.
      assert (i' = i) as -> by congruence. congruence.
  - exists PyNone. split; [done|]. split; [done|].
    intros (i' & value' & Hi' & _). apply first_index_None in E.
    destruct E. by eapply list_elem_of_lookup_2.
Qed.

(** ** Which token [option] removes as the value *)

Lemma option_leaves {V} name (default missing : V) convert s i value :
  first_index name (cl._original_arguments s) = Some i ->
  cl._original_arguments s !! (i + 1) = Some value ->
  cl.arguments (snd (cl.option name default missing convert s)) =
  discard value (discard name (cl.arguments s)).
Proof.
  intros E Hv.
  change (snd (cl.option name default missing convert s))
    with (run_query (QOption name default missing convert) s).
  rewrite run_query_consumed. simpl. by rewrite E, Hv.
Qed.

(** X8: the value is removed from the working arguments by equality, not
    by position.  On the freshly loaded module, with [name] first at the
    end of [pre] and followed by [value]: when no token of [pre] equals
    [value], [option] leaves [pre ++ post]; when one does, it is the first
    such token of [pre] that goes, and the token after [name] stays. *)
Theorem option_removes_first_token_equal_to_value {V} (pre post : list string)
    (name value : string) (default missing : V) (convert : string -> result V) :
  name ∉ pre ->
  let left :=
    cl.arguments
      (snd (cl.option name default missing convert
              (cl.start (pre ++ name :: value :: post)))) in
  (value ∉ pre -> left = pre ++ post) /\
  (forall p1 p2, pre = p1 ++ value :: p2 -> value ∉ p1 ->
                 left = p1 ++ p2 ++ value :: post).
Proof.
  intros Hname left.
  assert (left = discard value (pre ++ value :: post)) as Hleft.
  { unfold left. rewrite (option_leaves _ _ _ _ _ (length pre) value).
    - simpl. by rewrite discard_app.
    - simpl. apply first_index_intro.
      + by rewrite list_lookup_middle.
      + by rewrite take_app_length.
    - simpl. rewrite lookup_app_r by lia.
      by replace (length pre + 1 - length pre) with 1 by lia. }
  split.
  - intros Hvalue. by rewrite Hleft, discard_app.
  - intros p1 p2 -> Hvalue. rewrite Hleft, <- app_assoc. simpl.
    by rewrite discard_app.
Qed.

Lemma option_removes_first_token_equal_to_value_witness :
  cl.arguments
    (snd (option_defaults "-f" (cl.start ["x"; "a"; "-f"; "x"; "b"]))) =
  ["a"; "x"; "b"].
Proof.
  destruct (option_removes_first_token_equal_to_value (V:=pyval)
              ["x"; "a"] ["b"] "-f" "x" PyNone (PyStr "") py_str) as [_ Hfirst].
  - by_evaluation.
  - apply (Hfirst [] ["a"]); [reflexivity | by_evaluation].
Defined.

(** ** Glob expansion *)

Lemma length_flat_map_expansion glob args :
  length args <= length (flat_map (expansion_of glob) args).
Proof.
  induction args as [|arg args IH]; simpl; [lia|].
  assert (1 <= length (expansion_of glob arg)) as Hone.
  { unfold expansion_of. destruct (glob arg); simpl; lia. }
  rewrite length_app. lia.
Qed.

(** X9: the expansion never returns fewer arguments than it is given, on
    any platform and whatever [glob] matches. *)
Theorem glob_expand_length (platform : string) (glob : string -> list string)
    (args : list string) :
  length args <= length (cl._glob_expand platform glob args).
Proof.
  destruct (str_contains "win32" platform) eqn:Hwin.
  - rewrite glob_expand_flat_map by done. apply length_flat_map_expansion.
  - by rewrite glob_expand_elsewhere.
Qed.

(** X10: on a platform whose name contains [win32], a token is in the
    expansion exactly when it is a match of one of the arguments, or is
    itself an argument that [glob] does not match. *)
Theorem glob_expand_elem_of (platform : string) (glob : string -> list string)
    (args : list string) (x : string) :
  str_contains "win32" platform = true ->
  x ∈ cl._glob_expand platform glob args <->
  exists arg, arg ∈ args /\ (x ∈ glob arg \/ (glob arg = [] /\ x = arg)).
Proof.
  intros Hwin. rewrite glob_expand_flat_map by done.
  rewrite list_elem_of_In, in_flat_map. split.
  - intros (arg & Harg & Hx). exists arg. split; [by apply list_elem_of_In|].
    apply list_elem_of_In in Hx. unfold expansion_of in Hx.
    destruct (glob arg) as [|m ms] eqn:Hg; [|by left].
    right. split; [done|]. by apply list_elem_of_singleton in Hx.
  - intros (arg & Harg & Hx). exists arg. split; [by apply list_elem_of_In|].
    apply list_elem_of_In. unfold expansion_of.
    destruct Hx as [Hx | [Hg ->]].
    + destruct (glob arg); [by apply elem_of_nil in Hx | done].
    + rewrite Hg. by apply list_elem_of_singleton.
Qed.

Lemma glob_expand_elem_of_witness :
  "b.csv" ∈ cl._glob_expand "win32" two_csv_files ["-r"; "*.csv"].
Proof.
  apply (glob_expand_elem_of "win32" two_csv_files ["-r"; "*.csv"] "b.csv").
  - reflexivity.
  - exists "*.csv". split; [by_evaluation|]. left. by_evaluation.
Defined.

(** ** The module loaded without arguments *)

(** X11: when the command line holds the script's path and nothing else,
    the module loads with both lists empty on every platform; every
    [flag] then returns [False] and every [option] its [default], the
    path of the script itself included. *)
Theorem load_without_arguments {V} (platform : string)
    (glob : string -> list string) (script name : string)
    (default missing : V) (convert : string -> result V) :
  let s := cl.load platform glob [script] in
  s = cl.start [] /\
  cl.flag name s = (Return false, s) /\
  cl.option name default missing convert s = (Return default, s).
Proof.
  intros s.
  assert (s = cl.start []) as ->.
  { unfold s, cl.load, cl._glob_expand. simpl.
    by destruct (str_contains "win32" platform). }
  done.
Qed.
